(** * HEIC to JPEG batch converter: a shallow embedding of [heic_converter.py]

    The file system is a finite map from absolute paths to entries, the
    Python functions are programs of a small exception monad over system
    calls, and the thread pool is a step relation that interleaves the
    system calls of its worker threads. *)

From Stdlib Require Import Ascii String.
From stdpp Require Import base option list strings gmap pretty.

(** ** Paths (pathlib.PurePath) *)

(** An absolute, normalised path: its components below the root. *)
Abbreviation path := (list string).

Definition parent (p : path) : path := removelast p.

(** [Path.name]: the final component, empty for the root. *)
Definition name (p : path) : string := List.last p "".

Fixpoint rfind (c : ascii) (s : string) : option nat :=
  match s with
  | EmptyString => None
  | String a s' =>
      match rfind c s' with
      | Some i => Some (S i)
      | None => if Ascii.eqb a c then Some 0 else None
      end
  end.

(** [PurePath.stem]: the name up to its last dot, when that dot is neither
    the first nor the last character. *)
Definition stem_of (nm : string) : string :=
  match rfind "." nm with
  | Some i =>
      if (0 <? i)%nat && (i <? String.length nm - 1)%nat
      then substring 0 i nm else nm
  | None => nm
  end.

Definition stem (p : path) : string := stem_of (name p).

(** [PurePath.suffix]. *)
Definition suffix_of (nm : string) : string :=
  match rfind "." nm with
  | Some i =>
      if (0 <? i)%nat && (i <? String.length nm - 1)%nat
      then substring i (String.length nm - i) nm else ""
  | None => ""
  end.

(** [str(path)] on a POSIX system. *)
Definition render (p : path) : string :=
  match p with
  | [] => "/"
  | _ => String.concat "" (List.map (fun x => "/" +:+ x) p)
  end.

(** [a.relative_to(b)]: the components of [a] below [b], if any. *)
Fixpoint strip_prefix (b a : path) : option path :=
  match b, a with
  | [], _ => Some a
  | x :: b', y :: a' => if String.eqb x y then strip_prefix b' a' else None
  | _ :: _, [] => None
  end.

(** The proper, non-empty ancestors of a path and the path itself, from
    the root downwards: [/a], [/a/b], [/a/b/c]. *)
Fixpoint prefixes_from (cur rest : path) : list path :=
  match rest with
  | [] => []
  | x :: rest' => (cur ++ [x]) :: prefixes_from (cur ++ [x]) rest'
  end.

Definition prefixes (p : path) : list path := prefixes_from [] p.

(** ** Glob patterns (fnmatch) *)

Inductive gtok : Type :=
| GStar                        (* [*]: any run of characters *)
| GAny                         (* [?]: any one character *)
| GClass (cs : list ascii)     (* [[abc]]: one of the listed characters *)
| GLit (c : ascii).            (* the character itself *)

(** The characters of a class up to its closing bracket. *)
Fixpoint glob_class (s : string) : option (list ascii * string) :=
  match s with
  | EmptyString => None
  | String c s' =>
      if Ascii.eqb c "]" then Some ([], s')
      else match glob_class s' with
           | Some (cs, rest) => Some (c :: cs, rest)
           | None => None
           end
  end.

(** Tokens of a pattern; [fuel] bounds the number of tokens. A bracket that
    is never closed stands for itself, as in [fnmatch.translate]. Ranges
    and negated classes do not occur in the pattern of this program. *)
Fixpoint glob_tokens (fuel : nat) (s : string) : list gtok :=
  match fuel, s with
  | O, _ => []
  | _, EmptyString => []
  | S fuel', String c s' =>
      if Ascii.eqb c "*" then GStar :: glob_tokens fuel' s'
      else if Ascii.eqb c "?" then GAny :: glob_tokens fuel' s'
      else if Ascii.eqb c "[" then
        match glob_class s' with
        | Some (cs, rest) => GClass cs :: glob_tokens fuel' rest
        | None => GLit c :: glob_tokens fuel' s'
        end
      else GLit c :: glob_tokens fuel' s'
  end.

Definition glob_parse (s : string) : list gtok :=
  glob_tokens (String.length s) s.

Fixpoint glob_match (pat : list gtok) (s : list ascii) {struct pat} : bool :=
  match pat with
  | [] => match s with [] => true | _ => false end
  | GStar :: pat' =>
      (fix star (s : list ascii) : bool :=
         glob_match pat' s ||
         match s with [] => false | _ :: s' => star s' end) s
  | GAny :: pat' =>
      match s with [] => false | _ :: s' => glob_match pat' s' end
  | GClass cs :: pat' =>
      match s with
      | [] => false
      | c :: s' => existsb (Ascii.eqb c) cs && glob_match pat' s'
      end
  | GLit c :: pat' =>
      match s with
      | [] => false
      | c' :: s' => Ascii.eqb c c' && glob_match pat' s'
      end
  end.

Definition fnmatch (pattern nm : string) : bool :=
  glob_match (glob_parse pattern) (list_ascii_of_string nm).

(** The pattern of [convert_heic_to_jpeg]. *)
Definition heic_pattern : string := "*.[Hh][Ee][Ii][Cc]".

(** ** Exceptions *)

Inductive errno : Type := ENOENT | EEXIST | ENOTDIR | EISDIR.

Inductive exn_class : Type :=
| ValueError
| FileNotFoundError
| FileExistsError
| NotADirectoryError
| IsADirectoryError
| CodecError.      (* whatever the image library raises *)

(** An instance of a subclass of Python's [Exception]; [exn_msg] is what
    [str(e)] returns. *)
Record exn : Type := Exn { exn_cls : exn_class; exn_msg : string }.

Definition errno_class (e : errno) : exn_class :=
  match e with
  | ENOENT => FileNotFoundError
  | EEXIST => FileExistsError
  | ENOTDIR => NotADirectoryError
  | EISDIR => IsADirectoryError
  end.

Definition strerror (e : errno) : string :=
  match e with
  | ENOENT => "[Errno 2] No such file or directory: '"
  | EEXIST => "[Errno 17] File exists: '"
  | ENOTDIR => "[Errno 20] Not a directory: '"
  | EISDIR => "[Errno 21] Is a directory: '"
  end.

(** The [OSError] raised for a failed system call on [p]. *)
Definition oserror (e : errno) (p : path) : exn :=
  Exn (errno_class e) (strerror e +:+ render p +:+ "'").

(** ** The file system *)

Definition bytes : Type := list Byte.byte.

Inductive entry : Type :=
| File (data : bytes)
| Dir.

Record world : Type := World {
  fs : gmap path entry;      (* every entry below the root *)
  stdout : list string       (* the lines printed so far *)
}.

(** The entry stored at a path; the root is a directory. *)
Definition fs_lookup (m : gmap path entry) (p : path) : option entry :=
  match p with
  | [] => Some Dir
  | _ => m !! p
  end.

(** Path resolution as the kernel does it: every component on the way must
    be a directory. *)
Fixpoint walk (m : gmap path entry) (cur rest : path) : errno + entry :=
  match rest with
  | [] => match fs_lookup m cur with
          | Some e => inr e
          | None => inl ENOENT
          end
  | x :: rest' =>
      match fs_lookup m cur with
      | Some Dir => walk m (cur ++ [x]) rest'
      | Some (File _) => inl ENOTDIR
      | None => inl ENOENT
      end
  end.

Definition namei (m : gmap path entry) (p : path) : errno + entry :=
  walk m [] p.

(** [mkdir(2)]. *)
Definition sys_mkdir (m : gmap path entry) (p : path)
  : gmap path entry * option errno :=
  match namei m (parent p) with
  | inl e => (m, Some e)
  | inr (File _) => (m, Some ENOTDIR)
  | inr Dir =>
      match fs_lookup m p with
      | Some _ => (m, Some EEXIST)
      | None => (<[p := Dir]> m, None)
      end
  end.

(** Reading a whole file: [open(p, "rb").read()]. *)
Definition sys_read (m : gmap path entry) (p : path) : errno + bytes :=
  match namei m p with
  | inl e => inl e
  | inr Dir => inl EISDIR
  | inr (File data) => inr data
  end.

(** Creating or truncating a file and writing it: [open(p, "w+b")],
    [write], [close]. *)
Definition sys_write (m : gmap path entry) (p : path) (data : bytes)
  : gmap path entry * option errno :=
  match namei m (parent p) with
  | inl e => (m, Some e)
  | inr (File _) => (m, Some ENOTDIR)
  | inr Dir =>
      match fs_lookup m p with
      | Some Dir => (m, Some EISDIR)
      | _ => (<[p := File data]> m, None)
      end
  end.

(** [b] is a proper ancestor of [q]. *)
Definition below (b q : path) : bool :=
  match strip_prefix b q with
  | Some (_ :: _) => true
  | _ => false
  end.

Definition is_ok {E A : Type} (r : E + A) : bool :=
  match r with inr _ => true | inl _ => false end.

(** [Path.rglob(pattern)]: every entry reachable below [base] whose name
    matches. The entries come in the order the map enumerates them; the
    program relies on no order. *)
Definition rglob_select (m : gmap path entry) (base : path)
    (pattern : string) (q : path) : bool :=
  below base q && fnmatch pattern (name q) && is_ok (namei m q).

Definition rglob (m : gmap path entry) (base : path) (pattern : string)
  : list path :=
  List.filter (rglob_select m base pattern) (List.map fst (map_to_list m)).

(** ** System calls and programs *)

Inductive syscall : Type -> Type :=
| SysMkdir (p : path) : syscall (option errno)
| SysStat (p : path) : syscall (errno + bool)      (* is it a directory? *)
| SysRead (p : path) : syscall (errno + bytes)
| SysWrite (p : path) (data : bytes) : syscall (option errno)
| SysGlob (base : path) (pattern : string) : syscall (list path)
| SysPrint (line : string) : syscall unit.

Definition is_dir_entry (e : entry) : bool :=
  match e with Dir => true | File _ => false end.

Definition exec {X : Type} (c : syscall X) (w : world) : world * X :=
  match c in syscall X return world * X with
  | SysMkdir p =>
      let '(m, r) := sys_mkdir (fs w) p in (World m (stdout w), r)
  | SysStat p =>
      (w, match namei (fs w) p with
          | inl e => inl e
          | inr e => inr (is_dir_entry e)
          end)
  | SysRead p => (w, sys_read (fs w) p)
  | SysWrite p data =>
      let '(m, r) := sys_write (fs w) p data in (World m (stdout w), r)
  | SysGlob base pattern => (w, rglob (fs w) base pattern)
  | SysPrint line => (World (fs w) (stdout w ++ [line]), tt)
  end.

(** A Python computation: it returns, raises, or makes a system call and
    goes on with the answer. *)
Inductive prog (A : Type) : Type :=
| Ret (a : A)
| Raise (e : exn)
| Vis (X : Type) (c : syscall X) (k : X -> prog A).

Arguments Ret {A} a.
Arguments Raise {A} e.
Arguments Vis {A X} c k.

Fixpoint prog_bind {A B : Type} (f : A -> prog B) (m : prog A) : prog B :=
  match m with
  | Ret a => f a
  | Raise e => Raise e
  | Vis c k => Vis c (fun x => prog_bind f (k x))
  end.

#[global] Instance prog_mret : MRet prog := fun _ a => Ret a.
#[global] Instance prog_mbind : MBind prog := fun _ _ f m => prog_bind f m.

(** [try: m except Exception as e: h e]. *)
Fixpoint try_except {A : Type} (m : prog A) (h : exn -> prog A) : prog A :=
  match m with
  | Ret a => Ret a
  | Raise e => h e
  | Vis c k => Vis c (fun x => try_except (k x) h)
  end.

Definition call {X : Type} (c : syscall X) : prog X := Vis c Ret.

(** The result of a pure library call that may raise. *)
Definition lift {A : Type} (r : exn + A) : prog A :=
  match r with
  | inl e => Raise e
  | inr a => Ret a
  end.

(** Running a program alone, from a world to the world it leaves and what
    it returned or raised. *)
Fixpoint run {A : Type} (m : prog A) (w : world) : world * (exn + A) :=
  match m with
  | Ret a => (w, inr a)
  | Raise e => (w, inl e)
  | Vis c k => let '(w', x) := exec c w in run (k x) w'
  end.

(** ** The standard library, as the program uses it *)

Definition print (line : string) : prog unit := call (SysPrint line).

Definition os_mkdir (p : path) : prog unit :=
  r ← call (SysMkdir p);
  match r with
  | None => Ret tt
  | Some e => Raise (oserror e p)
  end.

(** [Path.exists]: a failing [stat] means no. *)
Definition path_exists (p : path) : prog bool :=
  r ← call (SysStat p);
  Ret (is_ok r).

(** [Path.is_dir]. *)
Definition path_is_dir (p : path) : prog bool :=
  r ← call (SysStat p);
  Ret (match r with inr d => d | inl _ => false end).

(** [Path.mkdir(parents, exist_ok)], over the path from its last
    component upwards:
<<
    try: os.mkdir(self)
    except FileNotFoundError:
        if not parents or self.parent == self: raise
        self.parent.mkdir(parents=True, exist_ok=True)
        self.mkdir(parents=False, exist_ok=exist_ok)
    except OSError:
        if not exist_ok or not self.is_dir(): raise
>> *)
Definition mkdir_except (p : path) (exist_ok : bool) (e : exn) : prog unit :=
  if exist_ok then
    d ← path_is_dir p;
    if d : bool then Ret tt else Raise e
  else Raise e.

Definition is_enoent (e : exn) : bool :=
  match exn_cls e with FileNotFoundError => true | _ => false end.

Definition mkdir_flat (p : path) (exist_ok : bool) : prog unit :=
  try_except (os_mkdir p) (fun e =>
    if is_enoent e then Raise e else mkdir_except p exist_ok e).

Fixpoint mkdir_rev (rp : list string) (parents exist_ok : bool) : prog unit :=
  let p := rev rp in
  try_except (os_mkdir p) (fun e =>
    if is_enoent e then
      match rp with
      | [] => Raise e
      | _ :: rp' =>
          if parents then
            _ ← mkdir_rev rp' true true;
            mkdir_flat p exist_ok
          else Raise e
      end
    else mkdir_except p exist_ok e).

Definition mkdir (p : path) (parents exist_ok : bool) : prog unit :=
  mkdir_rev (rev p) parents exist_ok.

Definition read_file (p : path) : prog bytes :=
  r ← call (SysRead p);
  match r with
  | inr data => Ret data
  | inl e => Raise (oserror e p)
  end.

Definition write_file (p : path) (data : bytes) : prog unit :=
  r ← call (SysWrite p data);
  match r with
  | None => Ret tt
  | Some e => Raise (oserror e p)
  end.

(** [a.relative_to(b)] raises [ValueError] when [a] is not below [b]. *)
Definition relative_to (a b : path) : prog path :=
  match strip_prefix b a with
  | Some rel => Ret rel
  | None =>
      Raise (Exn ValueError
        ("'" +:+ render a +:+ "' is not in the subpath of '" +:+ render b +:+ "'"))
  end.

(** [Path(s).resolve()] without symbolic links: the path is made absolute
    and its dots are removed. *)
Record user_path : Type := UserPath { absolute : bool; parts : list string }.

Fixpoint normalize (acc : path) (ps : list string) : path :=
  match ps with
  | [] => acc
  | x :: ps' =>
      if String.eqb x ".." then normalize (removelast acc) ps'
      else if String.eqb x "." || String.eqb x "" then normalize acc ps'
      else normalize (acc ++ [x]) ps'
  end.

(** Python's [x or d] for an optional count: [None] and [0] are false. *)
Definition py_or (x : option nat) (d : nat) : nat :=
  match x with
  | Some (S n) => S n
  | _ => d
  end.

(** ** The platform and the image library *)

Record platform : Type := Platform {
  os_name : string;            (* [os.name] *)
  cpu_count : option nat;      (* [os.cpu_count()] *)
  cwd : path                   (* the working directory *)
}.

(** Pillow with the HEIF opener registered: decoding the bytes of a file,
    converting an image to a mode, and encoding an image in a format. Each
    may raise. *)
Record codec : Type := Codec {
  image : Type;
  image_open : bytes -> exn + image;
  image_convert : image -> string -> exn + image;
  image_encode : image -> string -> nat -> nat -> bool -> exn + bytes
}.

(** ** The program *)

Definition esc : string := String (ascii_of_nat 27) "".
Definition nl : string := String (ascii_of_nat 10) "".

Definition str_repeat (s : string) (n : nat) : string :=
  String.concat "" (replicate n s).

Definition colors : gmap string string :=
  list_to_map
    [ ("green", esc +:+ "[92m");
      ("red", esc +:+ "[91m");
      ("yellow", esc +:+ "[93m");
      ("blue", esc +:+ "[94m");
      ("end", esc +:+ "[0m") ].

(** What a conversion returns: [(success, filename)]. *)
Definition outcome : Type := bool * string.

Record plan : Type := Plan {
  plan_input : path;
  plan_output : path;
  plan_files : list path
}.

Section Program.
Context (P : platform) (C : codec).

Definition print_color (text color : string) : prog unit :=
  if String.eqb (os_name P) "nt" then print text
  else print (default "" (colors !! color) +:+ text
              +:+ default "" (colors !! "end")).

(** The body of the [try] statement of [convert_single_heic]. *)
Definition convert_try (heic_file input_dir output_dir : path)
  : prog outcome :=
  rel ← relative_to heic_file input_dir;
  let relative_path := parent rel in
  let target_dir := output_dir ++ relative_path in
  _ ← mkdir target_dir true true;
  data ← read_file heic_file;
  img ← lift (image_open C data);
  let jpeg_path := target_dir ++ [stem heic_file +:+ ".jpg"] in
  rgb_img ← lift (image_convert C img "RGB");
  jpeg ← lift (image_encode C rgb_img "JPEG" 100 0 true);
  _ ← write_file jpeg_path jpeg;
  _ ← print_color ("✓ Converted: " +:+ name heic_file) "green";
  Ret (true, name heic_file).

(** Its [except Exception as e] clause. *)
Definition convert_except (heic_file : path) (e : exn) : prog outcome :=
  _ ← print_color
        ("✗ Error converting " +:+ name heic_file +:+ ": " +:+ exn_msg e)
        "red";
  Ret (false, name heic_file).

Definition convert_single_heic (heic_file input_dir output_dir : path)
  : prog outcome :=
  try_except (convert_try heic_file input_dir output_dir)
             (convert_except heic_file).

Definition resolve (input_path : user_path) : path :=
  normalize (if absolute input_path then [] else cwd P) (parts input_path).

Definition max_workers : nat := Nat.min 32 (py_or (cpu_count P) 4).

(** [convert_heic_to_jpeg] up to the thread pool: [None] when it returns
    early. *)
Definition batch_head (input_path : user_path) (output_folder : path)
  : prog (option plan) :=
  let input_dir := resolve input_path in
  found ← path_exists input_dir;
  if negb found then
    _ ← print_color ("Input directory not found: " +:+ render input_dir)
          "red";
    Ret None
  else
    let output_dir := input_dir ++ output_folder in
    _ ← mkdir output_dir true true;
    heic_files ← call (SysGlob input_dir heic_pattern);
    match heic_files with
    | [] =>
        _ ← print_color "No HEIC files found in the directory." "yellow";
        Ret None
    | _ :: _ =>
        _ ← print_color
              ("Found " +:+ pretty (length heic_files)
               +:+ " HEIC files to convert...") "blue";
        Ret (Some (Plan input_dir output_dir heic_files))
    end.

(** [convert_heic_to_jpeg] after the thread pool: the report. *)
Definition batch_tail (output_dir : path) (results : list outcome)
  : prog unit :=
  let converted := length (List.filter fst results) in
  let errors := length results - converted in
  _ ← print (nl +:+ str_repeat "-" 50);
  _ ← print_color "Conversion complete!" "blue";
  _ ← print_color ("✓ Successfully converted: " +:+ pretty converted)
        "green";
  _ ← (if (0 <? errors)%nat then
         _ ← print_color ("✗ Files with errors: " +:+ pretty errors) "red";
         print_color
           (nl +:+ "Check error messages above for problematic files")
           "yellow"
       else Ret tt);
  _ ← print_color
        (nl +:+ "Your converted images are in: " +:+ render output_dir)
        "blue";
  print (str_repeat "-" 50).

End Program.

(** ** The thread pool (concurrent.futures.ThreadPoolExecutor) *)

Section Pool.
Context {A : Type}.

(** The work items not yet taken, the items the worker threads are
    running, and the futures of [executor.map], one per submitted item in
    submission order. *)
Record pool : Type := Pool {
  pool_world : world;
  pool_queue : list (nat * prog A);
  pool_running : list (nat * prog A);
  pool_futures : list (option (exn + A))
}.

(** [executor.map(fn, items)] submits every item at once. *)
Definition pool_init (w : world) (tasks : list (prog A)) : pool :=
  Pool w (imap (fun i t => (i, t)) tasks) []
       (replicate (length tasks) None).

Inductive pool_step (workers : nat) : pool -> pool -> Prop :=
| step_take w it q r fu :
    length r < workers ->
    pool_step workers (Pool w (it :: q) r fu) (Pool w q (r ++ [it]) fu)
| step_call w q r1 i X (c : syscall X) k r2 fu :
    pool_step workers
      (Pool w q (r1 ++ (i, Vis c k) :: r2) fu)
      (Pool (exec c w).1 q (r1 ++ (i, k (exec c w).2) :: r2) fu)
| step_return w q r1 i a r2 fu :
    pool_step workers
      (Pool w q (r1 ++ (i, Ret a) :: r2) fu)
      (Pool w q (r1 ++ r2) (<[i := Some (inr a)]> fu))
| step_raise w q r1 i e r2 fu :
    pool_step workers
      (Pool w q (r1 ++ (i, Raise e) :: r2) fu)
      (Pool w q (r1 ++ r2) (<[i := Some (inl e)]> fu)).

Definition pool_idle (s : pool) : Prop :=
  pool_queue s = [] /\ pool_running s = [].

(** [list(executor.map(...))]: the results in submission order; the first
    stored exception is raised instead. [None] while a future is
    pending. *)
Fixpoint collect (fu : list (option (exn + A))) : option (exn + list A) :=
  match fu with
  | [] => Some (inr [])
  | None :: _ => None
  | Some (inl e) :: _ => Some (inl e)
  | Some (inr a) :: fu' =>
      match collect fu' with
      | Some (inr l) => Some (inr (a :: l))
      | other => other
      end
  end.

(** A whole run of the pool: from the submission to the moment every
    worker is idle. *)
Definition pool_run (workers : nat) (tasks : list (prog A)) (w : world)
    (s : pool) : Prop :=
  rtc (pool_step workers) (pool_init w tasks) s /\ pool_idle s.

(** One scheduling decision, for running the pool: [0] lets a worker take
    the next item, [S j] advances the [j]-th running item. *)
Definition pool_advance (s : pool) (j : nat) : option pool :=
  match pool_running s !! j with
  | None => None
  | Some (i, t) =>
      let before := take j (pool_running s) in
      let after := drop (S j) (pool_running s) in
      match t with
      | Vis c k =>
          Some (Pool (exec c (pool_world s)).1 (pool_queue s)
                     (before ++ (i, k (exec c (pool_world s)).2) :: after)
                     (pool_futures s))
      | Ret a =>
          Some (Pool (pool_world s) (pool_queue s) (before ++ after)
                     (<[i := Some (inr a)]> (pool_futures s)))
      | Raise e =>
          Some (Pool (pool_world s) (pool_queue s) (before ++ after)
                     (<[i := Some (inl e)]> (pool_futures s)))
      end
  end.

Definition pool_sched (workers : nat) (s : pool) (d : nat) : option pool :=
  match d with
  | O =>
      match pool_queue s with
      | it :: q =>
          if decide (length (pool_running s) < workers)
          then Some (Pool (pool_world s) q (pool_running s ++ [it])
                          (pool_futures s))
          else None
      | [] => None
      end
  | S j => pool_advance s j
  end.

(** Following a list of decisions; one that is not enabled is skipped. *)
Fixpoint pool_exec (workers : nat) (s : pool) (ds : list nat) : pool :=
  match ds with
  | [] => s
  | d :: ds' =>
      match pool_sched workers s d with
      | Some s' => pool_exec workers s' ds'
      | None => pool_exec workers s ds'
      end
  end.

End Pool.

Arguments pool : clear implicits.

(** ** The batch *)

Section Batch.
Context (P : platform) (C : codec).

(** The items submitted by [executor.map]: one call of
    [convert_single_heic(f, input_dir, output_dir)] per file. *)
Definition conversions (files : list path) (input_dir output_dir : path)
  : list (prog outcome) :=
  List.map (fun f => convert_single_heic P C f input_dir output_dir) files.

(** [convert_heic_to_jpeg(input_path, output_folder)] from world [w]:
    the world it leaves and whether it returned or raised. The thread
    pool makes it a relation. *)
Inductive convert_heic_to_jpeg (input_path : user_path)
    (output_folder : path) (w : world) : world -> exn + unit -> Prop :=
| batch_raise w1 e :
    run (batch_head P input_path output_folder) w = (w1, inl e) ->
    convert_heic_to_jpeg input_path output_folder w w1 (inl e)
| batch_return w1 :
    run (batch_head P input_path output_folder) w = (w1, inr None) ->
    convert_heic_to_jpeg input_path output_folder w w1 (inr tt)
| batch_pool w1 pl s results w3 r :
    run (batch_head P input_path output_folder) w = (w1, inr (Some pl)) ->
    pool_run (max_workers P)
      (conversions (plan_files pl) (plan_input pl) (plan_output pl)) w1 s ->
    collect (pool_futures s) = Some (inr results) ->
    run (batch_tail P (plan_output pl) results) (pool_world s) = (w3, r) ->
    convert_heic_to_jpeg input_path output_folder w w3 r
| batch_pool_raise w1 pl s e :
    run (batch_head P input_path output_folder) w = (w1, inr (Some pl)) ->
    pool_run (max_workers P)
      (conversions (plan_files pl) (plan_input pl) (plan_output pl)) w1 s ->
    collect (pool_futures s) = Some (inl e) ->
    convert_heic_to_jpeg input_path output_folder w (pool_world s) (inl e).

End Batch.

(** * Specification vocabulary *)




Section PoolVocabulary.
Context {A : Type}.


(** The items that have no result yet. *)
Definition pending (s : pool A) : list (nat * prog A) :=
  pool_queue s ++ pool_running s.

(** What holds of the pool all along a run of [n] items: the items without
    a result are distinct and each satisfies its thread invariant [Thr] in
    the current world, and every other future holds a result of its item
    that satisfies [Res]. *)
Record pool_inv (Thr : nat -> world -> prog A -> Prop)
    (Res : nat -> world -> A -> Prop) (n : nat) (s : pool A) : Prop :=
  PoolInv {
    inv_length : length (pool_futures s) = n;
    inv_nodup : NoDup (pending s).*1;
    inv_pending : forall i t,
      (i, t) ∈ pending s -> i < n /\ Thr i (pool_world s) t;
    inv_done : forall i,
      i < n -> i ∉ (pending s).*1 ->
      exists a, pool_futures s !! i = Some (Some (inr a)) /\
                Res i (pool_world s) a
  }.

End PoolVocabulary.

(** ** File systems *)

Definition is_dir (m : gmap path entry) (p : path) : Prop :=
  fs_lookup m p = Some Dir.

Definition is_file (m : gmap path entry) (p : path) : Prop :=
  exists data, fs_lookup m p = Some (File data).

(** The path and all its ancestors are directories. *)
Definition dir_chain (m : gmap path entry) (p : path) : Prop :=
  forall q, q `prefix_of` p -> is_dir m q.

(** A file system proper: whatever exists lies in a directory. *)
Definition wf_fs (m : gmap path entry) : Prop :=
  forall p e, p <> [] -> m !! p = Some e -> is_dir m (parent p).

(** ** Programs among other threads *)

Section RelyGuarantee.
Context {A : Type}.
Context (R G : world -> world -> Prop).
Context (Q : A -> world -> Prop) (QE : exn -> world -> Prop).

(** [rg w m]: started in [w] and run while the other threads change the
    world along [R] between any two of its steps, every call of [m] changes
    the world along [G], and [m] ends by returning a result in [Q] or by
    raising an exception in [QE]; both hold of every later world. *)
Inductive rg : world -> prog A -> Prop :=
| rg_ret w a : (forall w', R w w' -> Q a w') -> rg w (Ret a)
| rg_raise w e : (forall w', R w w' -> QE e w') -> rg w (Raise e)
| rg_vis w X (c : syscall X) k :
    (forall w', R w w' -> G w' (exec c w').1) ->
    (forall w', R w w' -> rg (exec c w').1 (k (exec c w').2)) ->
    rg w (Vis c k).

End RelyGuarantee.

Definition no_exn (e : exn) (w : world) : Prop := False.

(** What [Path.mkdir] leaves behind. *)

(** The directory is there. *)
Definition made (p : path) (_ : unit) (w : world) : Prop :=
  dir_chain (fs w) p.

(** A file is in the way. *)
Definition in_the_way (p : path) (_ : exn) (w : world) : Prop :=
  exists q, q `prefix_of` p /\ is_file (fs w) q.

Definition os_mkdir_failed (w0 : world) (p : path) (ex : exn) (w : world)
  : Prop :=
  exists e, ex = oserror e p /\
    match e with
    | ENOENT => ~ dir_chain (fs w0) (parent p)
    | ENOTDIR => in_the_way p ex w
    | EEXIST =>
        dir_chain (fs w) (parent p) /\ (is_dir (fs w) p \/ is_file (fs w) p)
    | EISDIR => False
    end.

(** One step of [Path.mkdir] run alone: nothing, or a new directory on the
    way to [target]. *)
Definition mkdir_step (target : path) (w w' : world) : Prop :=
  w' = w \/
  exists q, q `prefix_of` target /\ dir_chain (fs w) (parent q) /\
            fs_lookup (fs w) q = None /\
            w' = World (<[q := Dir]> (fs w)) (stdout w).

(** From [m] to [m'], only directories on the way to [target] were
    created. *)
Definition only_dirs_added (target : path) (m m' : gmap path entry) : Prop :=
  forall q, m' !! q = m !! q \/
            (q <> [] /\ q `prefix_of` target /\
             m !! q = None /\ m' !! q = Some Dir).

(** ** Names with the source extension *)

(** The lower-case form of an ASCII letter. *)
Definition lower (c : ascii) : ascii :=
  let n := nat_of_ascii c in
  if (65 <=? n)%nat && (n <=? 90)%nat then ascii_of_nat (n + 32) else c.

(** The name ends in a dot and the four letters [heic], in any mixture of
    upper and lower case. *)
Definition heic_name (nm : string) : Prop :=
  exists pre c1 c2 c3 c4,
    nm = pre +:+ String "." (String c1 (String c2 (String c3 (String c4 ""))))
    /\ lower c1 = "h"%char /\ lower c2 = "e"%char
    /\ lower c3 = "i"%char /\ lower c4 = "c"%char.

(** The name of what a conversion writes. *)
Definition jpg_name (nm : string) : Prop :=
  exists pre, nm = pre +:+ ".jpg".

(** ** What conversions do to the file system *)

(** From [m] to [m']: directories stay, files stay files, and the files
    that are not named [*.jpg] are the same with the same contents. *)
Record grows (m m' : gmap path entry) : Prop := Grows {
  grows_dir : forall p, is_dir m p -> is_dir m' p;
  grows_file : forall p, is_file m p -> is_file m' p;
  grows_keep : forall p data,
    ~ jpg_name (name p) ->
    (fs_lookup m' p = Some (File data) <-> fs_lookup m p = Some (File data))
}.

Definition grows_w (w w' : world) : Prop := grows (fs w) (fs w').

(** The same, and no file is new. *)
Definition settles (w w' : world) : Prop :=
  grows (fs w) (fs w') /\ forall p, is_file (fs w') p -> is_file (fs w) p.

(** Where [convert_single_heic(f, i, o)] creates its directory and writes
    its image. *)
Definition target_of (i o f : path) : path :=
  o ++ parent (default [] (strip_prefix i f)).

Definition jpeg_of (i o f : path) : path :=
  target_of i o f ++ [stem f +:+ ".jpg"].

(** The image library makes a JPEG of these bytes. *)
Definition decodes (C : codec) (data : bytes) (jpeg : bytes) : Prop :=
  exists img rgb,
    image_open C data = inr img /\
    image_convert C img "RGB" = inr rgb /\
    image_encode C rgb "JPEG" 100 0 true = inr jpeg.

(** The conversion of [f] cannot succeed, now or later: a file is in the
    way of its directory, [f] is no file the library can convert, or a
    directory sits where its image goes. *)
Definition blocked (C : codec) (i o f : path) (m : gmap path entry) : Prop :=
  (exists q, q `prefix_of` target_of i o f /\ is_file m q) \/
  (forall data jpeg, fs_lookup m f = Some (File data) -> ~ decodes C data jpeg) \/
  is_dir m (jpeg_of i o f).

(** The image of [f] is written, or never will be. *)
Definition converted_or_blocked (C : codec) (i o f : path)
    (m : gmap path entry) : Prop :=
  is_file m (jpeg_of i o f) \/ blocked C i o f m.

(** Every source file below [i] is so. *)
Definition settled (C : codec) (i o : path) (m : gmap path entry) : Prop :=
  forall f, f ∈ rglob m i heic_pattern -> converted_or_blocked C i o f m.

(** The check of [wf_fs]. *)
Definition wf_fsb (m : gmap path entry) : bool :=
  forallb (fun pe =>
             match fs_lookup m (parent pe.1) with
             | Some Dir => true
             | _ => match pe.1 with [] => true | _ => false end
             end) (map_to_list m).

(** The line [print_color(text, color)] prints. *)
Definition shown (P : platform) (text color : string) : string :=
  if String.eqb (os_name P) "nt" then text
  else default "" (colors !! color) +:+ text +:+ default "" (colors !! "end").


(** * Sample inputs *)

Module Examples.

(** An image library that decodes every non-empty file and encodes an image
    by putting a two-byte marker in front of it. *)
Definition toy_codec : codec :=
  Codec bytes
    (fun b => match b with
              | [] => inl (Exn CodecError "cannot identify image file")
              | _ => inr b
              end)
    (fun img _ => inr img)
    (fun img _ _ _ _ => inr (Byte.xff :: Byte.xd8 :: img)).

Definition posix : platform := Platform "posix" (Some 8) ["home"; "user"].
Definition many_cores : platform := Platform "posix" (Some 64) ["home"].
Definition unknown_cores : platform := Platform "nt" None ["home"].




(** A path that exists and is not a directory. *)
Definition notes : world :=
  World (list_to_map
           [ (["in"], Dir); (["in"; "notes.txt"], File [Byte.x03]) ]) [].

(** A directory whose name ends in [.heic], beside a photo and a text. *)
Definition album : world :=
  World (list_to_map
           [ (["in"], Dir);
             (["in"; "trip.heic"], Dir);
             (["in"; "trip.heic"; "list.txt"], File [Byte.x03]);
             (["in"; "photo.HEIC"], File [Byte.x01]);
             (["in"; "doc.txt"], File [Byte.x03]) ]) [].

(** The same without any photo. *)
Definition empty_album : world :=
  World (list_to_map
           [ (["in"], Dir);
             (["in"; "trip.heic"], Dir);
             (["in"; "doc.txt"], File [Byte.x03]) ]) [].

(** A second run: the output of the first is there. *)
Definition converted : world :=
  World (list_to_map
           [ (["in"], Dir);
             (["in"; "A"], Dir);
             (["in"; "A"; "photo1.HEIC"], File [Byte.x01]);
             (["in"; "Out"], Dir);
             (["in"; "Out"; "A"], Dir);
             (["in"; "Out"; "A"; "photo1.jpg"], File [Byte.x00]) ]) [].

End Examples.
(** * Properties *)

(** ** Running programs *)

Lemma run_bind {A B : Type} (m : prog A) (f : A -> prog B) (w : world) :
  run (m ≫= f) w =
  match run m w with
  | (w1, inr a) => run (f a) w1
  | (w1, inl e) => (w1, inl e)
  end.
Proof.
  revert w. induction m as [a|e|X c k IH]; intros w; cbn; try done.
  destruct (exec c w) as [w' x]. apply IH.
Qed.







Lemma run_print_color P text color w :
  run (print_color P text color) w =
  (World (fs w)
     (stdout w ++
        [if String.eqb (os_name P) "nt" then text
         else default "" (colors !! color) +:+ text
              +:+ default "" (colors !! "end")]), inr tt).
Proof. unfold print_color. by destruct (String.eqb _ _). Qed.

Section ConverterLeaves.
Context (P : platform) (C : codec).




End ConverterLeaves.



(** ** The size of the pool *)

Lemma max_workers_positive (P : platform) : 0 < max_workers P.
Proof.
  unfold max_workers, py_or. destruct (cpu_count P) as [[|n]|]; lia.
Qed.

Lemma max_workers_bounded (P : platform) : max_workers P <= 32.
Proof. unfold max_workers. lia. Qed.

(** C6. The pool has [min(32, n)] workers when [os.cpu_count()] is [n],
    a positive number, and [min(32, 4) = 4] workers when it is [None]. *)
Theorem max_workers_min (P : platform) :
  cpu_count P <> Some 0 ->
  max_workers P =
    match cpu_count P with
    | Some n => Nat.min 32 n
    | None => Nat.min 32 4
    end /\
  (cpu_count P = None -> max_workers P = 4).
Proof.
  intros Hpos. unfold max_workers, py_or.
  destruct (cpu_count P) as [[|n]|]; [done| |]; split; try done.
Qed.

Lemma max_workers_min_witness :
  cpu_count Examples.many_cores <> Some 0 /\
  max_workers Examples.many_cores = 32.
Proof.
  split; [discriminate|].
  apply (max_workers_min Examples.many_cores). discriminate.
Defined.

(** A core count of zero, which [os.cpu_count] never reports, would count
    as undetermined. *)
Lemma max_workers_zero (P : platform) :
  cpu_count P = Some 0 -> max_workers P = 4.
Proof. unfold max_workers. by intros ->. Qed.

(** ** What a failed conversion leaves behind *)






(** ** The thread pool *)


Section PoolFacts.
Context {A : Type}.
Implicit Types (s : pool A) (t : prog A).

(** *** Every run ends *)









End PoolFacts.

Section PoolInvariant.
Context {A : Type}.
Context (Thr : nat -> world -> prog A -> Prop).
Context (Res : nat -> world -> A -> Prop).
Context (Step : world -> world -> Prop).
Context (n : nat).
Implicit Types (s : pool A) (t : prog A).

Hypothesis Thr_call : forall i w X (c : syscall X) k,
  Thr i w (Vis c k) ->
  Step w (exec c w).1 /\ Thr i (exec c w).1 (k (exec c w).2).
Hypothesis Thr_ret : forall i w a, Thr i w (Ret a) -> Res i w a.
Hypothesis Thr_raise : forall i w e, ~ Thr i w (Raise e).
Hypothesis Thr_step : forall i w w' t, Step w w' -> Thr i w t -> Thr i w' t.
Hypothesis Res_step : forall i w w' a, Step w w' -> Res i w a -> Res i w' a.

Lemma imap_pair_fst (tasks : list (prog A)) (k : nat) :
  (imap (fun i t => (k + i, t)) tasks).*1 = seq k (length tasks).
Proof.
  revert k. induction tasks as [|t tasks IH]; intros k; [done|].
  cbn. rewrite Nat.add_0_r. f_equal.
  rewrite <- (IH (S k)). f_equal. apply imap_ext. intros i x _. cbn.
  f_equal. lia.
Qed.

Lemma pool_inv_init w (tasks : list (prog A)) :
  length tasks = n ->
  (forall i t, tasks !! i = Some t -> Thr i w t) ->
  pool_inv Thr Res n (pool_init w tasks).
Proof.
  intros Hn Hl.
  pose proof (imap_pair_fst tasks 0) as Hfst. cbn in Hfst.
  split; unfold pending; cbn; rewrite ?app_nil_r.
  - by rewrite length_replicate.
  - rewrite Hfst. apply NoDup_seq.
  - intros i t Hin. apply list_elem_of_lookup in Hin as [j Hj].
    rewrite list_lookup_imap in Hj.
    destruct (tasks !! j) as [t'|] eqn:Ht; simplify_eq/=.
    split; [|by apply Hl]. apply lookup_lt_Some in Ht. lia.
  - intros i Hi Hnot. exfalso. apply Hnot. rewrite Hfst.
    apply elem_of_seq. lia.
Qed.

Lemma pool_inv_step workers s s' :
  pool_inv Thr Res n s -> pool_step workers s s' ->
  pool_inv Thr Res n s' /\ rtc Step (pool_world s) (pool_world s').
Proof.
  intros [Hlen Hnd Hpend Hdone] Hstep.
  destruct Hstep as [w it q r fu Hlt|w q r1 i X c k r2 fu
                    |w q r1 i a r2 fu|w q r1 i e r2 fu];
    unfold pending in *; cbn in *.
  - split; [|done].
    assert (Hperm : q ++ r ++ [it] ≡ₚ (it :: q) ++ r).
    { rewrite (Permutation_app_comm r [it]). cbn.
      by rewrite Permutation_middle. }
    split; cbn; unfold pending; cbn.
    + done.
    + by rewrite Hperm.
    + intros i t Hin. apply Hpend. by rewrite <- Hperm.
    + intros i Hi Hnot. apply Hdone; [done|]. intros Hin. apply Hnot.
      rewrite Hperm. exact Hin.
  - destruct (Hpend i (Vis c k)) as [Hi Hl]; [set_solver|].
    apply Thr_call in Hl as [Hs Hl].
    split; [|by apply rtc_once].
    split; cbn; unfold pending; cbn.
    + done.
    + by rewrite !fmap_app, fmap_cons in *.
    + intros j t Hin.
      rewrite !elem_of_app, elem_of_cons in Hin.
      destruct Hin as [Hin|[Hin|[Hin|Hin]]].
      * destruct (Hpend j t) as [? ?]; [set_solver|]. eauto.
      * destruct (Hpend j t) as [? ?]; [set_solver|]. eauto.
      * by simplify_eq.
      * destruct (Hpend j t) as [? ?]; [set_solver|]. eauto.
    + intros j Hj Hnot. destruct (Hdone j) as (a & Ha & HR); [done| |eauto].
      by rewrite !fmap_app, fmap_cons in *.
  - split; [|done].
    destruct (Hpend i (Ret a)) as [Hi Hl]; [set_solver|].
    apply Thr_ret in Hl.
    assert (Hnd' : NoDup (q ++ r1 ++ r2).*1 /\ i ∉ (q ++ r1 ++ r2).*1).
    { rewrite !fmap_app, fmap_cons in Hnd. cbn in Hnd.
      rewrite !fmap_app.
      assert (Hp : q.*1 ++ r1.*1 ++ i :: r2.*1 ≡ₚ i :: q.*1 ++ r1.*1 ++ r2.*1).
      { rewrite app_assoc, <- Permutation_middle. by rewrite <- app_assoc. }
      rewrite Hp in Hnd. by apply NoDup_cons in Hnd as [??]. }
    destruct Hnd' as [Hnd' Hfresh].
    split; cbn; unfold pending; cbn.
    + by rewrite length_insert.
    + done.
    + intros j t Hin. apply Hpend. set_solver.
    + intros j Hj Hnot. destruct (decide (j = i)) as [->|Hne].
      * exists a. split; [|done]. apply list_lookup_insert_eq. lia.
      * rewrite list_lookup_insert_ne by done. apply Hdone; [done|].
        rewrite !fmap_app, fmap_cons. rewrite !fmap_app in Hnot. cbn.
        set_solver.
  - destruct (Hpend i (Raise e)) as [_ Hl]; [set_solver|].
    by apply Thr_raise in Hl.
Qed.

Lemma pool_inv_rtc workers s s' :
  pool_inv Thr Res n s -> rtc (pool_step workers) s s' ->
  pool_inv Thr Res n s' /\ rtc Step (pool_world s) (pool_world s').
Proof.
  intros Hs Hrun. induction Hrun as [s|s s1 s' Hstep _ IH]; [done|].
  destruct (pool_inv_step _ _ _ Hs Hstep) as [Hs1 Hw1].
  destruct (IH Hs1) as [Hs' Hw']. split; [done|]. by etrans.
Qed.

Lemma collect_done (fu : list (option (exn + A))) :
  (forall i, i < length fu -> exists a, fu !! i = Some (Some (inr a))) ->
  exists results,
    collect fu = Some (inr results) /\
    fu = (fun a => Some (inr a)) <$> results.
Proof.
  induction fu as [|x fu IH]; intros H.
  - by exists [].
  - destruct (H 0) as [a Ha]; [cbn; lia|]. cbn in Ha. simplify_eq.
    destruct IH as (results & Hc & ->).
    { intros i Hi. apply (H (S i)). cbn. lia. }
    exists (a :: results). cbn. by rewrite Hc.
Qed.

(** When the pool is idle, [list(executor.map(...))] raises nothing and is
    the list of the results of the items, each at the place of its item. *)
Lemma pool_idle_results s :
  pool_inv Thr Res n s -> pool_idle s ->
  exists results,
    collect (pool_futures s) = Some (inr results) /\
    length results = n /\
    forall i a, results !! i = Some a -> Res i (pool_world s) a.
Proof.
  intros [Hlen Hnd Hpend Hdone] [Hq Hr]. unfold pending in *.
  rewrite Hq, Hr in Hdone. cbn in Hdone.
  destruct (collect_done (pool_futures s)) as (results & Hc & Hfu).
  { intros i Hi. destruct (Hdone i) as (a & Ha & _); [lia|set_solver|eauto]. }
  exists results. split; [done|].
  split; [by rewrite <- Hlen, Hfu, length_fmap|].
  intros i a Hi.
  destruct (Hdone i) as (a' & Ha' & HQ).
  { apply lookup_lt_Some in Hi. by rewrite <- Hlen, Hfu, length_fmap. }
  { set_solver. }
  rewrite Hfu, list_lookup_fmap, Hi in Ha'. by simplify_eq/=.
Qed.

Lemma pool_run_results workers (tasks : list (prog A)) w s :
  length tasks = n ->
  (forall i t, tasks !! i = Some t -> Thr i w t) ->
  pool_run workers tasks w s ->
  rtc Step w (pool_world s) /\
  exists results,
    collect (pool_futures s) = Some (inr results) /\
    length results = n /\
    forall i a, results !! i = Some a -> Res i (pool_world s) a.
Proof.
  intros Hn Hl [Hrun Hidle].
  destruct (pool_inv_rtc workers _ _ (pool_inv_init w tasks Hn Hl) Hrun)
    as [Hinv Hw].
  split; [done|]. by apply pool_idle_results.
Qed.

End PoolInvariant.


(** ** The dispatcher *)

Section Dispatcher.
Context (P : platform) (C : codec).





End Dispatcher.

(** ** Path resolution *)

Lemma prefix_snoc_inv {X : Type} (q p : list X) (x : X) :
  q `prefix_of` p ++ [x] -> q = p ++ [x] \/ q `prefix_of` p.
Proof.
  intros [k Hk]. destruct (decide (k = [])) as [->|Hne].
  - left. by rewrite app_nil_r in Hk.
  - right. destruct (exists_last Hne) as (k' & y & ->).
    rewrite app_assoc in Hk. apply app_inj_tail in Hk as [-> _].
    by exists k'.
Qed.

Lemma parent_snoc (p : path) (x : string) : parent (p ++ [x]) = p.
Proof. unfold parent. apply removelast_last. Qed.

Lemma name_snoc (p : path) (x : string) : name (p ++ [x]) = x.
Proof. unfold name. apply last_last. Qed.

Lemma path_snoc (p : path) : p <> [] -> p = parent p ++ [name p].
Proof. intros Hp. by apply app_removelast_last. Qed.

Lemma prefix_parent (q p : path) :
  q `prefix_of` p -> q = p \/ q `prefix_of` parent p.
Proof.
  destruct (decide (p = [])) as [->|Hp].
  - intros Hq. apply prefix_nil_inv in Hq. by left.
  - intros Hq. pose proof (path_snoc p Hp) as Hs.
    destruct (prefix_snoc_inv q (parent p) (name p)) as [Heq|Hpre].
    + by rewrite <- Hs.
    + left. by rewrite Hs.
    + by right.
Qed.

Lemma parent_prefix (p : path) : parent p `prefix_of` p.
Proof.
  destruct (decide (p = [])) as [->|Hp]; [done|].
  rewrite (path_snoc p Hp) at 2. by apply prefix_app_r.
Qed.

Lemma fs_lookup_cons m (x : string) (p : path) :
  fs_lookup m (x :: p) = m !! (x :: p).
Proof. done. Qed.

Lemma fs_lookup_ne m (p : path) : p <> [] -> fs_lookup m p = m !! p.
Proof. by destruct p. Qed.

Lemma walk_inr m cur rest e :
  walk m cur rest = inr e <->
  fs_lookup m (cur ++ rest) = Some e /\
  forall k, k `prefix_of` rest -> k <> rest -> is_dir m (cur ++ k).
Proof.
  revert cur. induction rest as [|x rest IH]; intros cur; cbn.
  - rewrite app_nil_r. destruct (fs_lookup m cur) as [e'|] eqn:Hc.
    + split.
      * intros [= ->]. split; [done|]. intros k Hk Hne.
        apply prefix_nil_inv in Hk. done.
      * by intros [[= ->] _].
    + split; [done|]. by intros [? _].
  - destruct (fs_lookup m cur) as [[d|]|] eqn:Hc.
    + split; [done|]. intros [_ H].
      specialize (H [] (prefix_nil _)). rewrite app_nil_r in H.
      unfold is_dir in H. rewrite Hc in H. by specialize (H ltac:(done)).
    + rewrite IH, <- app_assoc. cbn. split.
      * intros [He H]. split; [done|]. intros k Hk Hne.
        destruct k as [|y k]; [by rewrite app_nil_r|].
        assert (y = x) as -> by (by destruct Hk as [? [=]]).
        apply prefix_cons_inv_2 in Hk.
        specialize (H k Hk). rewrite <- app_assoc in H. cbn in H.
        apply H. congruence.
      * intros [He H]. split; [done|]. intros k Hk Hne.
        rewrite <- app_assoc. cbn. apply H; [by apply prefix_cons|congruence].
    + split; [done|]. intros [_ H].
      specialize (H [] (prefix_nil _)). rewrite app_nil_r in H.
      unfold is_dir in H. rewrite Hc in H. by specialize (H ltac:(done)).
Qed.

Lemma namei_inr m p e :
  namei m p = inr e <->
  fs_lookup m p = Some e /\
  forall q, q `prefix_of` p -> q <> p -> is_dir m q.
Proof. unfold namei. by rewrite walk_inr. Qed.

Lemma namei_dir m p : namei m p = inr Dir <-> dir_chain m p.
Proof.
  rewrite namei_inr. unfold dir_chain. split.
  - intros [Hp H] q Hq. destruct (decide (q = p)) as [->|Hne]; auto.
  - intros H. split; [by apply H|]. intros q Hq _. by apply H.
Qed.

Lemma walk_inl m cur rest err :
  walk m cur rest = inl err ->
  err = ENOENT \/
  (err = ENOTDIR /\
   exists k, k `prefix_of` rest /\ k <> rest /\ is_file m (cur ++ k)).
Proof.
  revert cur. induction rest as [|x rest IH]; intros cur; cbn.
  - destruct (fs_lookup m cur); [done|]. intros [= <-]. by left.
  - destruct (fs_lookup m cur) as [[d|]|] eqn:Hc.
    + intros [= <-]. right. split; [done|]. exists [].
      split; [apply prefix_nil|]. split; [done|].
      rewrite app_nil_r. by exists d.
    + intros H. apply IH in H as [->|(-> & k & Hk & Hne & Hf)]; [by left|].
      right. split; [done|]. exists (x :: k).
      split; [by apply prefix_cons|]. split; [congruence|].
      by rewrite <- app_assoc in Hf.
    + intros [= <-]. by left.
Qed.

Lemma namei_inl m p err :
  namei m p = inl err ->
  err = ENOENT \/
  (err = ENOTDIR /\ exists q, q `prefix_of` p /\ q <> p /\ is_file m q).
Proof. apply walk_inl. Qed.

Lemma dir_chain_parent m p : dir_chain m p -> dir_chain m (parent p).
Proof.
  intros H q Hq. apply H. etrans; [done|]. apply parent_prefix.
Qed.

Lemma dir_chain_prefix m q p :
  q `prefix_of` p -> dir_chain m p -> dir_chain m q.
Proof. intros Hq H k Hk. apply H. by etrans. Qed.

Lemma dir_chain_snoc m p :
  dir_chain m (parent p) -> is_dir m p -> dir_chain m p.
Proof.
  intros Hpar Hp q Hq. apply prefix_parent in Hq as [->|Hq]; auto.
Qed.

Lemma is_dir_not_file m p : is_dir m p -> is_file m p -> False.
Proof. unfold is_dir. intros H [d Hd]. congruence. Qed.

(** ** Reasoning about a program among other threads *)

Section RelyGuaranteeRules.
Context (R G : world -> world -> Prop).
Context `{!PreOrder R}.

Lemma rg_inv {A : Type} (Q : A -> world -> Prop) QE w (m : prog A) :
  rg R G Q QE w m ->
  match m with
  | Ret a => forall w', R w w' -> Q a w'
  | Raise e => forall w', R w w' -> QE e w'
  | Vis c k =>
      forall w', R w w' ->
        G w' (exec c w').1 /\ rg R G Q QE (exec c w').1 (k (exec c w').2)
  end.
Proof. destruct 1; auto. Qed.

(** The judgement survives what the other threads do. *)
Lemma rg_later {A : Type} (Q : A -> world -> Prop) QE w w2 (m : prog A) :
  R w w2 -> rg R G Q QE w m -> rg R G Q QE w2 m.
Proof.
  intros Hw Hm. destruct Hm; constructor; intros w' Hw';
    match goal with H : _ |- _ => apply H end; by etrans.
Qed.

Lemma rg_conseq {A : Type} (Q Q' : A -> world -> Prop) QE QE' w (m : prog A) :
  (forall a w', Q a w' -> Q' a w') ->
  (forall e w', QE e w' -> QE' e w') ->
  rg R G Q QE w m -> rg R G Q' QE' w m.
Proof.
  intros HQ HE Hm. induction Hm; constructor; auto.
Qed.

Lemma rg_bind {A B : Type} (Q1 : A -> world -> Prop) (Q2 : B -> world -> Prop)
    QE w (m : prog A) (f : A -> prog B) :
  rg R G Q1 QE w m ->
  (forall a w', Q1 a w' -> rg R G Q2 QE w' (f a)) ->
  rg R G Q2 QE w (m ≫= f).
Proof.
  intros Hm Hf. induction Hm as [w a Ha|w e He|w X c k HG _ IH]; cbn.
  - apply Hf, Ha. reflexivity.
  - by constructor.
  - constructor; [done|]. intros w' Hw'. by apply IH.
Qed.

Lemma rg_try_except {A : Type} (Q : A -> world -> Prop) QE1 QE2 w
    (m : prog A) (h : exn -> prog A) :
  rg R G Q QE1 w m ->
  (forall e w', QE1 e w' -> rg R G Q QE2 w' (h e)) ->
  rg R G Q QE2 w (try_except m h).
Proof.
  intros Hm Hh. induction Hm as [w a Ha|w e He|w X c k HG _ IH]; cbn.
  - by constructor.
  - apply Hh, He. reflexivity.
  - constructor; [done|]. intros w' Hw'. by apply IH.
Qed.

Lemma rg_call {X : Type} (Q : X -> world -> Prop) QE w (c : syscall X) :
  (forall w', R w w' ->
     G w' (exec c w').1 /\
     forall w'', R (exec c w').1 w'' -> Q (exec c w').2 w'') ->
  rg R G Q QE w (call c).
Proof.
  intros H. constructor.
  - intros w' Hw'. by apply H.
  - intros w' Hw'. constructor. by apply H.
Qed.

Lemma rg_lift {A : Type} (Q : A -> world -> Prop) QE w (r : exn + A) :
  match r with
  | inr a => forall w', R w w' -> Q a w'
  | inl e => forall w', R w w' -> QE e w'
  end ->
  rg R G Q QE w (lift r).
Proof. destruct r; by constructor. Qed.

(** Run alone, the program does what the judgement says. *)
Lemma rg_run {A : Type} (Q : A -> world -> Prop) QE w (m : prog A) w' r :
  rg R G Q QE w m ->
  run m w = (w', r) ->
  rtc G w w' /\
  match r with
  | inr a => Q a w'
  | inl e => QE e w'
  end.
Proof.
  intros Hm. revert w' r.
  induction Hm as [w a Ha|w e He|w X c k HG _ IH]; intros w' r; cbn.
  - intros [= <- <-]. split; [done|]. by apply Ha.
  - intros [= <- <-]. split; [done|]. by apply He.
  - destruct (exec c w) as [w1 x] eqn:Hc. intros Hrun.
    specialize (HG w (reflexivity _)). specialize (IH w (reflexivity _)).
    rewrite Hc in HG, IH. cbn in HG, IH.
    destruct (IH _ _ Hrun) as [Hrtc Hpost]. split; [|done].
    by eapply rtc_l.
Qed.

(** In a pool whose threads all keep to [G], each thread keeps its
    judgement and each result its postcondition. *)
Lemma pool_run_rg {A : Type} (Q : nat -> A -> world -> Prop) workers
    (tasks : list (prog A)) w s :
  (forall w1 w2, G w1 w2 -> R w1 w2) ->
  (forall i t, tasks !! i = Some t -> rg R G (Q i) no_exn w t) ->
  pool_run workers tasks w s ->
  rtc G w (pool_world s) /\
  exists results,
    collect (pool_futures s) = Some (inr results) /\
    length results = length tasks /\
    forall i a, results !! i = Some a -> Q i a (pool_world s).
Proof.
  intros HGR Hl Hrun.
  destruct (pool_run_results
              (fun i w0 t => rg R G (Q i) no_exn w0 t)
              (fun i w0 a => forall w', R w0 w' -> Q i a w')
              G (length tasks)) with (workers := workers) (tasks := tasks)
              (w := w) (s := s)
    as (Hw & results & Hc & Hlen & Hres); try done.
  - intros i w0 X c k H. apply rg_inv in H. by apply H.
  - intros i w0 a H. exact (rg_inv _ _ _ _ H).
  - intros i w0 e H. apply rg_inv in H. by apply (H w0).
  - intros i w0 w' t Hs. apply rg_later. by apply HGR.
  - intros i w0 w' a Hs H w'' Hw''. apply H. etrans; [|done]. by apply HGR.
  - split; [done|]. exists results. split; [done|]. split; [done|].
    intros i a Hi. by apply (Hres i a Hi).
Qed.

End RelyGuaranteeRules.

(** ** System calls *)

Lemma world_eta (w : world) : World (fs w) (stdout w) = w.
Proof. by destruct w. Qed.

Lemma exec_mkdir w p :
  exec (SysMkdir p) w =
  match namei (fs w) (parent p) with
  | inl e => (w, Some e)
  | inr (File _) => (w, Some ENOTDIR)
  | inr Dir =>
      match fs_lookup (fs w) p with
      | Some _ => (w, Some EEXIST)
      | None => (World (<[p := Dir]> (fs w)) (stdout w), None)
      end
  end.
Proof.
  cbn. unfold sys_mkdir.
  destruct (namei (fs w) (parent p)) as [e|[d|]]; rewrite ?world_eta; try done.
  destruct (fs_lookup (fs w) p); by rewrite ?world_eta.
Qed.


Lemma fs_lookup_insert m (p q : path) (e : entry) :
  p <> [] ->
  fs_lookup (<[p := e]> m) q = if decide (p = q) then Some e else fs_lookup m q.
Proof.
  intros Hp. destruct q as [|x q].
  - by rewrite decide_False.
  - cbn. by rewrite lookup_insert.
Qed.

Lemma fs_lookup_root_some m (p : path) : fs_lookup m p = None -> p <> [].
Proof. by destruct p. Qed.

Lemma is_dir_insert_dir m (p q : path) :
  is_dir m q -> is_dir (<[p := Dir]> m) q.
Proof.
  unfold is_dir. destruct q as [|x q]; [done|]. cbn.
  rewrite lookup_insert. by case_decide.
Qed.

Lemma dir_chain_insert m (p : path) :
  dir_chain m (parent p) -> dir_chain (<[p := Dir]> m) p.
Proof.
  intros H q Hq. apply prefix_parent in Hq as [->|Hq].
  - unfold is_dir. destruct p; [done|]. cbn. by rewrite lookup_insert_eq.
  - by apply is_dir_insert_dir, H.
Qed.

Lemma is_enoent_oserror e p :
  is_enoent (oserror e p) = match e with ENOENT => true | _ => false end.
Proof. by destruct e. Qed.

(** ** [Path.mkdir(parents=True, exist_ok=True)] among other threads *)

Section Mkdir.
Context (R G : world -> world -> Prop).
Context `{!PreOrder R}.
Context (target : path).

Hypothesis R_dir : forall w w' q,
  R w w' -> is_dir (fs w) q -> is_dir (fs w') q.
Hypothesis R_file : forall w w' q,
  R w w' -> is_file (fs w) q -> is_file (fs w') q.
Hypothesis G_id : forall w, G w w.
Hypothesis G_mkdir : forall w q,
  q `prefix_of` target ->
  dir_chain (fs w) (parent q) ->
  fs_lookup (fs w) q = None ->
  G w (World (<[q := Dir]> (fs w)) (stdout w)).

Lemma R_dir_chain w w' q :
  R w w' -> dir_chain (fs w) q -> dir_chain (fs w') q.
Proof. intros Hw H k Hk. eapply R_dir; [done|]. by apply H. Qed.

Lemma rg_os_mkdir w p :
  p `prefix_of` target ->
  rg R G (made p) (os_mkdir_failed w p) w (os_mkdir p).
Proof.
  intros Hp. unfold os_mkdir. cbn. constructor; intros w' Hw'.
  - rewrite exec_mkdir.
    destruct (namei (fs w') (parent p)) as [e|[d|]] eqn:Hn; cbn; auto.
    destruct (fs_lookup (fs w') p) eqn:Hl; cbn; auto.
    apply G_mkdir; [done|by apply namei_dir|done].
  - rewrite exec_mkdir.
    destruct (namei (fs w') (parent p)) as [e|[d|]] eqn:Hn; cbn.
    + constructor. intros w'' Hw''. exists e. split; [done|].
      pose proof Hn as Hn'.
      apply namei_inl in Hn' as [->|(-> & q & Hq & _ & Hf)].
      * intros Hc. apply (R_dir_chain _ _ _ Hw'), namei_dir in Hc.
        congruence.
      * exists q. split; [|by eapply R_file].
        etrans; [done|]. apply parent_prefix.
    + constructor. intros w'' Hw''. exists ENOTDIR. split; [done|].
      exists (parent p). split; [apply parent_prefix|].
      eapply R_file; [done|]. apply namei_inr in Hn as [Hn _]. by exists d.
    + apply namei_dir in Hn.
      destruct (fs_lookup (fs w') p) as [e|] eqn:Hl; cbn.
      * constructor. intros w'' Hw''. exists EEXIST. split; [done|].
        split; [by eapply R_dir_chain|].
        destruct e as [d|].
        -- right. eapply R_file; [done|]. by exists d.
        -- left. by eapply R_dir.
      * constructor. intros w'' Hw''. unfold made.
        eapply R_dir_chain; [done|]. cbn. by apply dir_chain_insert.
Qed.

Lemma rg_mkdir_except w p ex :
  in_the_way p ex w \/
  (dir_chain (fs w) (parent p) /\ (is_dir (fs w) p \/ is_file (fs w) p)) ->
  rg R G (made p) (in_the_way p) w (mkdir_except p true ex).
Proof.
  intros Hpre. unfold mkdir_except, path_is_dir. cbn.
  constructor; intros w' Hw'; [apply G_id|]. cbn.
  destruct (namei (fs w') p) as [e|[d|]] eqn:Hn; cbn.
  all: constructor; intros w'' Hw''.
  3: { unfold made. eapply R_dir_chain; [done|]. by apply namei_dir. }
  all: destruct Hpre as [(q & Hq & Hf)|[Hc [Hd|Hf]]].
  all: try (exists q; split; [done|]; eapply R_file; [|done]; by etrans).
  all: try (exists p; split; [done|]; eapply R_file; [|done]; by etrans).
  all: exfalso.
  all: assert (Hc' : dir_chain (fs w') p)
    by (apply dir_chain_snoc; [by eapply R_dir_chain|by eapply R_dir]).
  all: apply namei_dir in Hc'; congruence.
Qed.

Lemma rg_mkdir_flat w p :
  p `prefix_of` target ->
  dir_chain (fs w) (parent p) ->
  rg R G (made p) (in_the_way p) w (mkdir_flat p true).
Proof.
  intros Hp Hc. unfold mkdir_flat.
  eapply rg_try_except; [done|by apply rg_os_mkdir|].
  intros ex w' (e & -> & He). rewrite is_enoent_oserror.
  destruct e; try done.
  - apply rg_mkdir_except. by right.
  - apply rg_mkdir_except. by left.
Qed.

Lemma rg_mkdir_rev rp w :
  rev rp `prefix_of` target ->
  rg R G (made (rev rp)) (in_the_way (rev rp)) w (mkdir_rev rp true true).
Proof.
  revert w. induction rp as [|x rp IH]; intros w Hp.
  - cbn [mkdir_rev].
    eapply rg_try_except; [done|by apply rg_os_mkdir|].
    intros ex w' (e & -> & He). rewrite is_enoent_oserror.
    destruct e; try done.
    + exfalso. apply He. intros q Hq. apply prefix_nil_inv in Hq. by subst.
    + apply rg_mkdir_except. by right.
    + apply rg_mkdir_except. by left.
  - cbn [mkdir_rev].
    eapply rg_try_except; [done|by apply rg_os_mkdir|].
    intros ex w' (e & -> & He). rewrite is_enoent_oserror.
    destruct e; try done.
    + assert (Hpar : parent (rev (x :: rp)) = rev rp)
        by (cbn; apply parent_snoc).
      eapply rg_bind; [done| |].
      * eapply rg_conseq; [| |apply IH].
        -- intros a w1 H. exact H.
        -- intros e w1 (q & Hq & Hf). exists q. split; [|done].
           cbn. by apply prefix_app_r.
        -- etrans; [|done]. cbn. by apply prefix_app_r.
      * intros u w1 Hmade. apply rg_mkdir_flat; [done|].
        by rewrite Hpar.
    + apply rg_mkdir_except. by right.
    + apply rg_mkdir_except. by left.
Qed.

Lemma rg_mkdir w :
  rg R G (made target) (in_the_way target) w (mkdir target true true).
Proof.
  unfold mkdir. rewrite <- (rev_involutive target) at 1 2.
  apply rg_mkdir_rev. by rewrite rev_involutive.
Qed.

End Mkdir.

(** ** [Path.mkdir] run alone *)

Lemma mkdir_step_rtc target w w' :
  rtc (mkdir_step target) w w' ->
  stdout w' = stdout w /\ only_dirs_added target (fs w) (fs w').
Proof.
  induction 1 as [w|w w1 w' Hstep _ [IHo IHf]].
  - split; [done|]. intros q. by left.
  - destruct Hstep as [->|(q & Hq & _ & Hnone & ->)]; [done|].
    split; [done|]. intros k. cbn in IHf.
    apply fs_lookup_root_some in Hnone as Hne.
    destruct (IHf k) as [Hk|(Hk0 & Hk1 & Hk2 & Hk3)].
    + rewrite Hk. rewrite lookup_insert. case_decide as Hqk; [|by left].
      subst k. right. split; [done|]. split; [done|]. split; [|done].
      by rewrite <- (fs_lookup_ne _ _ Hne).
    + rewrite lookup_insert in Hk2. case_decide; [done|].
      right. done.
Qed.

Lemma mkdir_run target w w' r :
  run (mkdir target true true) w = (w', r) ->
  stdout w' = stdout w /\
  only_dirs_added target (fs w) (fs w') /\
  match r with
  | inr _ => dir_chain (fs w') target
  | inl _ => exists q, q `prefix_of` target /\ is_file (fs w') q
  end.
Proof.
  intros Hrun.
  assert (Hrg : rg eq (mkdir_step target) (made target) (in_the_way target)
                  w (mkdir target true true)).
  { apply rg_mkdir.
    - apply _.
    - by intros ??? ->.
    - by intros ??? ->.
    - intros ?. by left.
    - intros w0 q Hq Hc Hnone. right. by exists q. }
  destruct (rg_run eq _ _ _ _ _ _ _ Hrg Hrun) as [Hrtc Hpost].
  destruct (mkdir_step_rtc _ _ _ Hrtc) as [Ho Hf].
  split; [done|]. split; [done|]. by destruct r.
Qed.

(** A directory that is there already is left alone. *)
Lemma only_dirs_added_chain target m m' :
  dir_chain m target -> only_dirs_added target m m' -> m' = m.
Proof.
  intros Hc Hadd. apply map_eq. intros q.
  destruct (Hadd q) as [Hq|(Hne & Hq & Hnone & _)]; [done|].
  specialize (Hc q Hq). unfold is_dir in Hc.
  rewrite (fs_lookup_ne _ _ Hne) in Hc. congruence.
Qed.

Lemma only_dirs_added_lookup target m m' q e :
  only_dirs_added target m m' -> m !! q = Some e -> m' !! q = Some e.
Proof.
  intros Hadd Hq. destruct (Hadd q) as [->|(_ & _ & Hn & _)]; congruence.
Qed.


(** ** One conversion run alone *)

Lemma strip_prefix_Some (b a rel : path) :
  strip_prefix b a = Some rel <-> a = b ++ rel.
Proof.
  revert a. induction b as [|x b IH]; intros a; cbn.
  - split; [by intros [= ->]|by intros ->].
  - destruct a as [|y a]; [done|].
    destruct (String.eqb_spec x y) as [->|Hne].
    + rewrite IH. split; [by intros ->|by intros [= ->]].
    + split; [done|]. intros [= ??]. done.
Qed.






Section ConvertAlone.
Context (P : platform) (C : codec).



End ConvertAlone.



(** The file that was at the output path is overwritten. *)
Lemma convert_overwrites :
  fs Examples.converted !! ["in"; "Out"; "A"; "photo1.jpg"]
    = Some (File [Byte.x00]) /\
  fs (run (convert_single_heic Examples.posix Examples.toy_codec
            ["in"; "A"; "photo1.HEIC"] ["in"] ["in"; "Out"])
          Examples.converted).1 !! ["in"; "Out"; "A"; "photo1.jpg"]
    = Some (File [Byte.xff; Byte.xd8; Byte.x01]).
Proof. split; by vm_compute. Qed.

(** ** The batch up to the pool *)

Lemma mkdir_run_steps target w w' r :
  run (mkdir target true true) w = (w', r) ->
  rtc (mkdir_step target) w w'.
Proof.
  intros Hrun.
  assert (Hrg : rg eq (mkdir_step target) (made target) (in_the_way target)
                  w (mkdir target true true)).
  { apply rg_mkdir.
    - apply _.
    - by intros ??? ->.
    - by intros ??? ->.
    - intros ?. by left.
    - intros w0 q Hq Hc Hnone. right. by exists q. }
  by destruct (rg_run eq _ _ _ _ _ _ _ Hrg Hrun).
Qed.

(** Below a file nothing is created. *)
Lemma mkdir_step_below_file target q0 d w w' :
  q0 `prefix_of` target ->
  namei (fs w) q0 = inr (File d) ->
  rtc (mkdir_step target) w w' -> w' = w.
Proof.
  intros Hq0 Hn Hrtc. induction Hrtc as [w|w w1 w' Hstep _ IH]; [done|].
  destruct Hstep as [->|(q & Hq & Hc & Hnone & ->)]; [by apply IH|].
  exfalso. apply namei_inr in Hn as [Hfile Hdirs].
  destruct (prefix_weak_total _ _ _ Hq Hq0) as [Hle|Hle].
  - destruct (decide (q = q0)) as [->|Hne]; [congruence|].
    specialize (Hdirs q Hle Hne). unfold is_dir in Hdirs. congruence.
  - destruct (decide (q0 = q)) as [->|Hne]; [congruence|].
    apply prefix_parent in Hle as [?|Hle]; [done|].
    specialize (Hc q0 Hle). unfold is_dir in Hc. congruence.
Qed.

Section BatchHead.
Context (P : platform).

Lemma run_path_exists p w :
  run (path_exists p) w = (w, inr (is_ok (namei (fs w) p))).
Proof. unfold path_exists. cbn. by destruct (namei (fs w) p). Qed.

(** A path that does not exist: one line is printed and the function
    returns. *)
Lemma batch_head_missing input_path output_folder w e :
  namei (fs w) (resolve P input_path) = inl e ->
  run (batch_head P input_path output_folder) w =
    (World (fs w)
       (stdout w ++
          [shown P ("Input directory not found: "
                    +:+ render (resolve P input_path)) "red"]),
     inr None).
Proof.
  intros Hn. unfold batch_head. rewrite run_bind, run_path_exists, Hn. cbn.
  rewrite run_bind, run_print_color. done.
Qed.

(** A path that is a file: creating the output directory raises, and
    nothing has changed. *)
Lemma batch_head_file input_path output_folder w d :
  namei (fs w) (resolve P input_path) = inr (File d) ->
  exists e, run (batch_head P input_path output_folder) w = (w, inl e).
Proof.
  intros Hn. unfold batch_head. rewrite run_bind, run_path_exists, Hn. cbn.
  rewrite run_bind.
  destruct (run (mkdir (resolve P input_path ++ output_folder) true true) w)
    as [w1 r] eqn:Hmk.
  pose proof (mkdir_run_steps _ _ _ _ Hmk) as Hsteps.
  apply (mkdir_step_below_file _ (resolve P input_path) d) in Hsteps;
    [|by apply prefix_app_r|done]. subst w1.
  apply mkdir_run in Hmk as (_ & _ & Hpost).
  destruct r as [e|[]]; [by exists e|].
  exfalso. specialize (Hpost (resolve P input_path) (prefix_app_r _ _ _ (reflexivity _))).
  apply namei_inr in Hn as [Hn _]. unfold is_dir in Hpost. congruence.
Qed.

End BatchHead.

Section BatchMissing.
Context (P : platform) (C : codec).

(** When the input path does not exist, the batch prints
    [Input directory not found: <path>] and returns: no directory is
    created, nothing is enumerated and nothing is converted. *)
Lemma batch_input_missing input_path output_folder w w' r e :
  namei (fs w) (resolve P input_path) = inl e ->
  convert_heic_to_jpeg P C input_path output_folder w w' r ->
  r = inr tt /\
  fs w' = fs w /\
  stdout w' = stdout w ++
    [shown P ("Input directory not found: "
              +:+ render (resolve P input_path)) "red"].
Proof.
  intros Hn Hrun.
  pose proof (batch_head_missing P input_path output_folder w e Hn) as Hh.
  destruct Hrun as [w1 e' H|w1 H|w1 pl s results w3 r H|w1 pl s e' H];
    rewrite Hh in H; by simplify_eq.
Qed.

(** When the input path is a file, the batch raises and nothing has
    changed. *)
Lemma batch_input_file input_path output_folder w w' r d :
  namei (fs w) (resolve P input_path) = inr (File d) ->
  convert_heic_to_jpeg P C input_path output_folder w w' r ->
  w' = w /\ exists e, r = inl e.
Proof.
  intros Hn Hrun.
  destruct (batch_head_file P input_path output_folder w d Hn) as [e Hh].
  destruct Hrun as [w1 e' H|w1 H|w1 pl s results w3 r H|w1 pl s e' H];
    rewrite Hh in H; simplify_eq. eauto.
Qed.

End BatchMissing.

(** C5, at a path that is a file. The input path [/in/notes.txt] exists
    and is not a directory: the batch does not take the exit for a missing
    input directory; creating the output directory raises
    [NotADirectoryError], which leaves [convert_heic_to_jpeg]. *)
Theorem batch_on_a_file_raises :
  convert_heic_to_jpeg Examples.posix Examples.toy_codec
    (UserPath true ["in"; "notes.txt"]) ["Out"]
    Examples.notes Examples.notes
    (inl (oserror ENOTDIR ["in"; "notes.txt"; "Out"])) /\
  exn_cls (oserror ENOTDIR ["in"; "notes.txt"; "Out"]) = NotADirectoryError /\
  stdout Examples.notes = [].
Proof.
  split; [|done]. apply batch_raise. by vm_compute.
Qed.

(** ** The pattern [*.[Hh][Ee][Ii][Cc]] *)

Lemma glob_match_star pat s :
  glob_match (GStar :: pat) s = true <->
  exists pre suf, s = pre ++ suf /\ glob_match pat suf = true.
Proof.
  induction s as [|c s IH].
  - cbn. rewrite orb_false_r. split.
    + intros H. by exists [], [].
    + intros (pre & suf & Heq & H). symmetry in Heq.
      apply app_eq_nil in Heq as [-> ->]. done.
  - change (glob_match (GStar :: pat) (c :: s))
      with (glob_match pat (c :: s) || glob_match (GStar :: pat) s).
    rewrite orb_true_iff, IH. split.
    + intros [H|(pre & suf & -> & H)].
      * by exists [], (c :: s).
      * by exists (c :: pre), suf.
    + intros (pre & suf & Heq & H). destruct pre as [|c' pre]; cbn in Heq.
      * left. by subst.
      * right. simplify_eq. by exists pre, suf.
Qed.

Lemma class_H c : existsb (Ascii.eqb c) ["H"; "h"]%char = true <-> lower c = "h"%char.
Proof.
  destruct c as [[] [] [] [] [] [] [] []]; vm_compute; split; congruence.
Qed.

Lemma class_E c : existsb (Ascii.eqb c) ["E"; "e"]%char = true <-> lower c = "e"%char.
Proof.
  destruct c as [[] [] [] [] [] [] [] []]; vm_compute; split; congruence.
Qed.

Lemma class_I c : existsb (Ascii.eqb c) ["I"; "i"]%char = true <-> lower c = "i"%char.
Proof.
  destruct c as [[] [] [] [] [] [] [] []]; vm_compute; split; congruence.
Qed.

Lemma class_C c : existsb (Ascii.eqb c) ["C"; "c"]%char = true <-> lower c = "c"%char.
Proof.
  destruct c as [[] [] [] [] [] [] [] []]; vm_compute; split; congruence.
Qed.

Lemma glob_match_extension suf :
  glob_match [GLit "."; GClass ["H"; "h"]; GClass ["E"; "e"];
              GClass ["I"; "i"]; GClass ["C"; "c"]]%char suf = true <->
  exists c1 c2 c3 c4,
    suf = ["."; c1; c2; c3; c4]%char /\
    lower c1 = "h"%char /\ lower c2 = "e"%char /\
    lower c3 = "i"%char /\ lower c4 = "c"%char.
Proof.
  split.
  - destruct suf as [|c0 [|c1 [|c2 [|c3 [|c4 [|c5 suf]]]]]]; cbn [glob_match];
      rewrite ?andb_false_r; try done.
    rewrite !andb_true_iff, class_H, class_E, class_I, class_C.
    intros (H0 & H1 & H2 & H3 & H4 & _).
    apply Ascii.eqb_eq in H0 as <-. by exists c1, c2, c3, c4.
  - intros (c1 & c2 & c3 & c4 & -> & H1 & H2 & H3 & H4). cbn [glob_match].
    rewrite !andb_true_iff, class_H, class_E, class_I, class_C. done.
Qed.

Lemma list_ascii_of_string_app (a b : string) :
  list_ascii_of_string (a +:+ b)
  = list_ascii_of_string a ++ list_ascii_of_string b.
Proof.
  induction a as [|c a IH]; [done|].
  change (c :: list_ascii_of_string (a +:+ b)
          = c :: list_ascii_of_string a ++ list_ascii_of_string b).
  by rewrite IH.
Qed.

Lemma string_of_list_ascii_app (a b : list ascii) :
  string_of_list_ascii (a ++ b)
  = string_of_list_ascii a +:+ string_of_list_ascii b.
Proof.
  induction a as [|c a IH]; [done|].
  change (String c (string_of_list_ascii (a ++ b))
          = String c (string_of_list_ascii a +:+ string_of_list_ascii b)).
  by rewrite IH.
Qed.

(** The pattern matches exactly the names that end in [.heic] in some
    mixture of cases. *)
Lemma fnmatch_heic nm : fnmatch heic_pattern nm = true <-> heic_name nm.
Proof.
  unfold fnmatch.
  change (glob_parse heic_pattern)
    with ([GStar; GLit "."; GClass ["H"; "h"]; GClass ["E"; "e"];
           GClass ["I"; "i"]; GClass ["C"; "c"]]%char).
  rewrite glob_match_star. unfold heic_name. split.
  - intros (pre & suf & Heq & H).
    apply glob_match_extension in H
      as (c1 & c2 & c3 & c4 & -> & H1 & H2 & H3 & H4).
    exists (string_of_list_ascii pre), c1, c2, c3, c4. split; [|done].
    rewrite <- (string_of_list_ascii_of_string nm), Heq.
    by rewrite string_of_list_ascii_app.
  - intros (pre & c1 & c2 & c3 & c4 & -> & H1 & H2 & H3 & H4).
    exists (list_ascii_of_string pre), ["."; c1; c2; c3; c4]%char.
    split; [by rewrite list_ascii_of_string_app|].
    apply glob_match_extension. by exists c1, c2, c3, c4.
Qed.

(** All sixteen ways of writing the extension match. *)
Lemma fnmatch_heic_cases (pre : string) (h e i c : bool) :
  fnmatch heic_pattern
    (pre +:+ String "."
       (String (if h then "H" else "h")
          (String (if e then "E" else "e")
             (String (if i then "I" else "i")
                (String (if c then "C" else "c") ""))))) = true.
Proof.
  apply fnmatch_heic. eexists pre, _, _, _, _. split; [done|].
  by destruct h, e, i, c.
Qed.

(** What a conversion writes is never taken for a source file. *)
Lemma heic_name_not_jpg nm : heic_name nm -> ~ jpg_name nm.
Proof.
  intros (pre & c1 & c2 & c3 & c4 & -> & _ & _ & _ & H4) [pre' Heq].
  apply (f_equal list_ascii_of_string) in Heq.
  rewrite !list_ascii_of_string_app in Heq. cbn in Heq.
  change [c1; c2; c3; c4] with ([c1; c2; c3] ++ [c4]) in Heq.
  change ["."; "j"; "p"; "g"]%char with (["."; "j"; "p"]%char ++ ["g"%char]) in Heq.
  change ("."%char :: [c1; c2; c3] ++ [c4])
    with (("."%char :: [c1; c2; c3]) ++ [c4]) in Heq.
  rewrite !app_assoc in Heq. apply app_inj_tail in Heq as [_ ->].
  vm_compute in H4. discriminate.
Qed.

(** ** Enumeration *)

Lemma below_spec (b q : path) :
  below b q = true <-> exists rel, rel <> [] /\ q = b ++ rel.
Proof.
  unfold below. destruct (strip_prefix b q) as [rel|] eqn:Hs.
  - apply strip_prefix_Some in Hs as ->. destruct rel as [|x rel].
    + split; [done|]. intros (rel & Hne & Heq).
      by apply app_inv_head in Heq as <-.
    + split; [|done]. intros _. by exists (x :: rel).
  - split; [done|]. intros (rel & _ & Heq).
    apply strip_prefix_Some in Heq. congruence.
Qed.

(** [rglob] yields, once each, the entries reachable below the base whose
    name matches the pattern, files and directories alike. *)
Lemma elem_of_rglob m base pattern q :
  q ∈ rglob m base pattern <->
  (exists rel, rel <> [] /\ q = base ++ rel) /\
  fnmatch pattern (name q) = true /\
  exists e, namei m q = inr e.
Proof.
  unfold rglob. rewrite list_elem_of_In, filter_In, <- list_elem_of_In.
  unfold rglob_select. rewrite !andb_true_iff, below_spec. split.
  - intros (_ & (Hb & Hf) & Hn). split; [done|]. split; [done|].
    destruct (namei m q) as [|e]; [done|]. by exists e.
  - intros (Hb & Hf & e & Hn). rewrite Hn. split; [|done].
    apply list_elem_of_fmap. exists (q, e). split; [done|].
    apply elem_of_map_to_list. apply namei_inr in Hn as [Hl _].
    destruct Hb as (rel & Hne & ->).
    rewrite fs_lookup_ne in Hl; [done|]. by destruct base, rel.
Qed.

Lemma NoDup_List_filter {X : Type} (f : X -> bool) (l : list X) :
  NoDup l -> NoDup (List.filter f l).
Proof.
  induction 1 as [|x l Hx _ IH]; cbn; [constructor|].
  destruct (f x); [|done]. constructor; [|done].
  rewrite list_elem_of_In, filter_In, <- list_elem_of_In. by intros [? _].
Qed.

Lemma rglob_NoDup m base pattern : NoDup (rglob m base pattern).
Proof.
  unfold rglob. apply NoDup_List_filter, NoDup_fst_map_to_list.
Qed.

(** C4, at a directory named like a photo. Below [/in] there is one file
    with the source extension, [photo.HEIC]; the enumeration yields two
    paths, and one is the directory [trip.heic]. *)
Theorem rglob_yields_a_directory :
  rglob (fs Examples.album) ["in"] heic_pattern
    = [["in"; "trip.heic"]; ["in"; "photo.HEIC"]] /\
  fs Examples.album !! ["in"; "trip.heic"] = Some Dir /\
  (forall q data,
     fs Examples.album !! q = Some (File data) -> heic_name (name q) ->
     q = ["in"; "photo.HEIC"]).
Proof.
  split; [by vm_compute|]. split; [by vm_compute|].
  intros q data Hq Hname.
  apply elem_of_map_to_list in Hq.
  vm_compute map_to_list in Hq.
  apply fnmatch_heic in Hname.
  repeat (apply elem_of_cons in Hq as [Hq|Hq]; [by simplify_eq|]).
  by apply elem_of_nil in Hq.
Qed.

(** ** Running the pool along a schedule *)

Lemma pool_sched_step {A : Type} workers (s s' : pool A) d :
  pool_sched workers s d = Some s' -> pool_step workers s s'.
Proof.
  destruct s as [w q r fu]. destruct d as [|j]; cbn.
  - destruct q as [|it q]; [done|]. case_decide; [|done].
    intros [= <-]. by apply step_take.
  - unfold pool_advance. cbn.
    destruct (r !! j) as [[i t]|] eqn:Hj; [|done].
    pose proof (take_drop_middle r j (i, t) Hj) as Hr.
    destruct t as [a|e|X c k]; intros [= <-].
    + rewrite <- Hr at 1. apply step_return.
    + rewrite <- Hr at 1. apply step_raise.
    + rewrite <- Hr at 1. apply step_call.
Qed.

(** Whatever the decisions, [pool_exec] follows a run of the pool. *)
Lemma pool_exec_rtc {A : Type} workers (s : pool A) ds :
  rtc (pool_step workers) s (pool_exec workers s ds).
Proof.
  revert s. induction ds as [|d ds IH]; intros s; cbn; [done|].
  destruct (pool_sched workers s d) as [s'|] eqn:Hd; [|apply IH].
  eapply rtc_l; [by eapply pool_sched_step|apply IH].
Qed.



(** C8, at a directory named like a photo. Below [/in] no file has the
    source extension, yet the batch does not report that no file was
    found: it finds the directory [trip.heic], announces one file, submits
    its conversion, which fails, and reports one error. *)
Theorem batch_converts_a_directory :
  (forall q data,
     fs Examples.empty_album !! q = Some (File data) ->
     ~ heic_name (name q)) /\
  (run (batch_head Examples.posix (UserPath true ["in"]) ["Out"])
       Examples.empty_album).2
    = inr (Some (Plan ["in"] ["in"; "Out"] [["in"; "trip.heic"]])) /\
  exists w',
    convert_heic_to_jpeg Examples.posix Examples.toy_codec
      (UserPath true ["in"]) ["Out"] Examples.empty_album w' (inr tt) /\
    stdout w' !! 0
      = Some (shown Examples.posix "Found 1 HEIC files to convert..." "blue") /\
    stdout w' !! 1
      = Some (shown Examples.posix
                "✗ Error converting trip.heic: [Errno 21] Is a directory: '/in/trip.heic'"
                "red") /\
    stdout w' !! 5
      = Some (shown Examples.posix "✗ Files with errors: 1" "red").
Proof.
  split; [|split; [by vm_compute|]].
  - intros q data Hq Hname. apply elem_of_map_to_list in Hq.
    vm_compute map_to_list in Hq. apply fnmatch_heic in Hname.
    repeat (apply elem_of_cons in Hq as [Hq|Hq]; [by simplify_eq|]).
    by apply elem_of_nil in Hq.
  - set (hd := run (batch_head Examples.posix (UserPath true ["in"]) ["Out"])
                 Examples.empty_album).
    set (s := pool_exec (max_workers Examples.posix)
                (pool_init hd.1
                   (conversions Examples.posix Examples.toy_codec
                      [["in"; "trip.heic"]] ["in"] ["in"; "Out"]))
                [0; 1; 1; 1; 1; 1; 1; 1; 1]).
    exists (run (batch_tail Examples.posix ["in"; "Out"] [(false, "trip.heic")])
              (pool_world s)).1.
    split; [|by vm_compute].
    eapply (batch_pool _ _ _ _ _ hd.1
              (Plan ["in"] ["in"; "Out"] [["in"; "trip.heic"]]) s
              [(false, "trip.heic")]).
    + by vm_compute.
    + split; [apply pool_exec_rtc|]. by vm_compute.
    + by vm_compute.
    + by vm_compute.
Qed.

(** ** Conversions among other conversions *)

#[global] Instance grows_preorder : PreOrder grows.
Proof.
  split.
  - intros m. by split.
  - intros m1 m2 m3 [D1 F1 K1] [D2 F2 K2]. split; [by auto|by auto|].
    intros p data Hp. rewrite (K2 p data Hp). by apply K1.
Qed.

#[global] Instance grows_w_preorder : PreOrder grows_w.
Proof.
  split.
  - intros w. unfold grows_w. reflexivity.
  - intros w1 w2 w3. unfold grows_w. intros ??. by etrans.
Qed.

#[global] Instance settles_preorder : PreOrder settles.
Proof.
  split.
  - intros w. split; [reflexivity|done].
  - intros w1 w2 w3 [G1 N1] [G2 N2]. split; [by etrans|auto].
Qed.

Lemma name_jpeg_of i o f : jpg_name (name (jpeg_of i o f)).
Proof. unfold jpeg_of. rewrite name_snoc. by exists (stem f). Qed.

Lemma parent_jpeg_of i o f : parent (jpeg_of i o f) = target_of i o f.
Proof. unfold jpeg_of. by rewrite parent_snoc. Qed.

Lemma jpeg_of_ne i o f : jpeg_of i o f <> [].
Proof. unfold jpeg_of. by destruct (target_of i o f). Qed.

(** Creating a directory where there was nothing. *)
Lemma grows_insert_dir m q :
  fs_lookup m q = None -> grows m (<[q := Dir]> m).
Proof.
  intros Hnone. apply fs_lookup_root_some in Hnone as Hne. split.
  - intros p. apply is_dir_insert_dir.
  - intros p [d Hd]. exists d. rewrite fs_lookup_insert by done.
    case_decide; [congruence|done].
  - intros p data _. rewrite fs_lookup_insert by done.
    case_decide; [|done]. subst p. rewrite Hnone. done.
Qed.

(** Writing a file named [*.jpg] where there is no directory. *)
Lemma grows_insert_file m p data :
  p <> [] -> jpg_name (name p) -> fs_lookup m p <> Some Dir ->
  grows m (<[p := File data]> m).
Proof.
  intros Hne Hname Hnd. split.
  - intros q Hq. unfold is_dir in *. rewrite fs_lookup_insert by done.
    case_decide; [congruence|done].
  - intros q [d Hd]. unfold is_file. rewrite fs_lookup_insert by done.
    case_decide; eauto.
  - intros q d Hq. rewrite fs_lookup_insert by done.
    case_decide; [by subst q|done].
Qed.

Lemma grows_dir_chain m m' p : grows m m' -> dir_chain m p -> dir_chain m' p.
Proof. intros Hg H q Hq. eapply grows_dir; [done|]. by apply H. Qed.

Lemma blocked_grows C i o f m m' :
  ~ jpg_name (name f) -> grows m m' ->
  blocked C i o f m -> blocked C i o f m'.
Proof.
  intros Hname Hg [(q & Hq & Hf)|[Hbad|Hd]].
  - left. exists q. split; [done|]. by eapply grows_file.
  - right. left. intros data jpeg Hdata. apply Hbad.
    by apply (grows_keep _ _ Hg).
  - right. right. by eapply grows_dir.
Qed.

Lemma converted_or_blocked_grows C i o f m m' :
  ~ jpg_name (name f) -> grows m m' ->
  converted_or_blocked C i o f m -> converted_or_blocked C i o f m'.
Proof.
  intros Hname Hg [Hf|Hb].
  - left. by eapply grows_file.
  - right. by eapply blocked_grows.
Qed.

(** A judgement records how far the world has moved. *)
Lemma rg_reach {A : Type} (R G : world -> world -> Prop) `{!PreOrder R}
    (Q : A -> world -> Prop) QE w (m : prog A) :
  (forall w1 w2, G w1 w2 -> R w1 w2) ->
  rg R G Q QE w m ->
  rg R G (fun a w' => Q a w' /\ R w w') (fun e w' => QE e w' /\ R w w') w m.
Proof.
  intros HGR Hm. induction Hm as [w a Ha|w e He|w X c k HG Hk IH].
  - constructor. auto.
  - constructor. auto.
  - constructor; [done|]. intros w' Hw'.
    eapply rg_conseq; [| |apply (IH w' Hw')]; cbn.
    + intros a w2 [HQ Hw2]. split; [done|].
      etrans; [done|]. etrans; [|done]. apply HGR, HG, Hw'.
    + intros e w2 [HQ Hw2]. split; [done|].
      etrans; [done|]. etrans; [|done]. apply HGR, HG, Hw'.
Qed.
